(** * Interpolation: a derived node of the react-spring value graph

    Shallow embedding of [packages/core/src/Interpolation.ts].

    An [Interpolation] wraps one or more [FluidValue] sources, recomputes a
    memoized output from them and takes part in the start / change / priority
    / idle protocol of the graph.  The class is stateful and its methods may
    throw, so every method is a computation in a state-and-exception monad
    [M] over a [World]: the node itself (with the source objects it refers
    to), the global [skipAnimation] flag, and the trace of the calls the node
    makes into collaborators that live outside the file (the base class
    [FrameValue], the frame loop).

    The model is local to one node.  A source is the object as the node
    reads it during a call ([get()], [idle], [priority]) together with its
    child set; what a source does when it gains its first observer or loses
    its last one is part of the source object.  What the observers do with
    an event, and what the base class does in [super] calls, is recorded in
    the trace and not followed: the calls are taken to return. *)

From Stdlib Require Import ZArith Bool List Lia.
From stdpp Require Import base option list gmap sets.
Import ListNotations.
Local Open Scope Z_scope.

(** ** Values of the host language *)

(** [OneOrMore<T>]: either a single [T] or an array of them. *)
Inductive OneOrMore (A : Type) : Type :=
| One (a : A)
| More (l : list A).
Arguments One {A} a.
Arguments More {A} l.

(** [toArray] on a [OneOrMore]. *)
Definition toArray {A : Type} (x : OneOrMore A) : list A :=
  match x with
  | One a => [a]
  | More l => l
  end.

(** [x || 0] on a property that may be undefined: [undefined] and [0] are the
    falsy numbers that can occur. *)
Definition or_zero (x : option Z) : Z :=
  match x with
  | Some p => if p =? 0 then 0 else p
  | None => 0
  end.

(** A loop [each(xs, x => ...)] whose body updates loop-local variables [S]
    and mutates the element it visits. *)
Fixpoint each_acc {S A : Type} (body : S -> A -> S * A) (s : S) (xs : list A)
  : S * list A :=
  match xs with
  | [] => (s, [])
  | x :: rest =>
      let '(s1, x') := body s x in
      let '(s2, rest') := each_acc body s1 rest in
      (s2, x' :: rest')
  end.

(** The same loop over [toArray(x)], keeping the shape of [x]. *)
Definition each_source {S A : Type} (body : S -> A -> S * A) (s : S)
  (x : OneOrMore A) : S * OneOrMore A :=
  match x with
  | One a => let '(s', a') := body s a in (s', One a')
  | More l => let '(s', l') := each_acc body s l in (s', More l')
  end.

(** An element of the payload of a storage cell: the [done] marker and the
    rest of its animation state. *)
Record AnimatedValue (NodeState : Type) : Type := mkAnimatedValue {
  done : bool;
  node_state : NodeState
}.
Arguments mkAnimatedValue {NodeState} done node_state.
Arguments done {NodeState} a.
Arguments node_state {NodeState} a.

(** ** The collaborators the file imports

    The output values, the exceptions a read or a mapping can throw, the
    animation state of a payload element, and the three imported functions
    the class calls on them. *)
Class Collaborators : Type := {
  Value : Type;
  Error : Type;
  NodeState : Type;
  (** [isEqual] of the shared package (the equality the spec calls deep). *)
  isEqual : Value -> Value -> bool;
  (** [toArray] on a value read from a single source: [calc] receives its
      elements as arguments. *)
  valueToArray : Value -> list Value;
  (** [node.reset()] on a payload element (animated package). *)
  node_reset : AnimatedValue NodeState -> AnimatedValue NodeState
}.

(** [xs.map(f)] over [toArray(x)], keeping the shape of [x]. *)
Definition map_source {A B : Type} (f : A -> B) (x : OneOrMore A)
  : OneOrMore B :=
  match x with
  | One a => One (f a)
  | More l => More (map f l)
  end.

Section Interpolation.

Context `{Co : Collaborators}.

(** ** Completions: a call returns or throws *)

Inductive completion (A : Type) : Type :=
| Normal (a : A)
| Throw (e : Error).
Arguments Normal {A} a.
Arguments Throw {A} e.

Definition completion_bind {A B : Type} (c : completion A)
  (k : A -> completion B) : completion B :=
  match c with
  | Normal a => k a
  | Throw e => Throw e
  end.

(** [xs.map(f)] where [f] may throw: the first exception ends the loop. *)
Fixpoint map_completion {A B : Type} (f : A -> completion B) (xs : list A)
  : completion (list B) :=
  match xs with
  | [] => Normal []
  | x :: rest =>
      completion_bind (f x) (fun y =>
      completion_bind (map_completion f rest) (fun ys => Normal (y :: ys)))
  end.

(** ** Sources *)

(** What a [FrameValue] has on top of a [FluidValue]. *)
Record FrameFields : Type := mkFrame {
  frame_idle : bool;
  frame_priority : Z
}.

(** A source object as the node sees it: the result of [get()], the
    [FrameValue] fields when [isFrameValue(source)] holds, a [priority]
    property that a source which is not a [FrameValue] may still show when
    it is read through [any], the set of registered children (observer
    ids), and what the source does to its own [FrameValue] fields when it
    gains its first observer and when it loses its last one. *)
Record FluidValue : Type := mkFluid {
  fluid_get : completion Value;
  fluid_frame : option FrameFields;
  fluid_any_priority : option Z;
  fluid_children : gset nat;
  fluid_attach : FrameFields -> FrameFields;
  fluid_detach : FrameFields -> FrameFields
}.


(** [source.idle] and [source.priority] as the typed reads of [_attach] and
    [isIdle] see them: the fields of a [FrameValue], undefined otherwise. *)
Definition source_idle (s : FluidValue) : option bool :=
  frame_idle <$> fluid_frame s.

Definition source_priority (s : FluidValue) : option Z :=
  frame_priority <$> fluid_frame s.

(** [source.priority] read through [any], as the priority event does on
    every source: the field of a [FrameValue], or whatever [priority]
    property another kind of source has. *)
Definition any_priority (s : FluidValue) : option Z :=
  match fluid_frame s with
  | Some f => Some (frame_priority f)
  | None => fluid_any_priority s
  end.

(** Modelled from the spec: [addChild] of the observer base contract, which
    is not in this file; it registers an observer in the child set of the
    source, and a source that gains its first observer attaches (a derived
    source then rewrites its own priority and idle flag). *)
Definition addChild (child : nat) (s : FluidValue) : FluidValue :=
  {| fluid_get := fluid_get s;
     fluid_frame :=
       if decide (fluid_children s = ∅)
       then fluid_attach s <$> fluid_frame s
       else fluid_frame s;
     fluid_any_priority := fluid_any_priority s;
     fluid_children := {[ child ]} ∪ fluid_children s;
     fluid_attach := fluid_attach s;
     fluid_detach := fluid_detach s |}.

(** Modelled from the spec: [removeChild] of the observer base contract,
    which is not in this file; it takes an observer out of the child set of
    the source, and a source that loses its last observer detaches. *)
Definition removeChild (child : nat) (s : FluidValue) : FluidValue :=
  {| fluid_get := fluid_get s;
     fluid_frame :=
       if decide (child ∈ fluid_children s
                  /\ fluid_children s ∖ {[ child ]} = ∅)
       then fluid_detach s <$> fluid_frame s
       else fluid_frame s;
     fluid_any_priority := fluid_any_priority s;
     fluid_children := fluid_children s ∖ {[ child ]};
     fluid_attach := fluid_attach s;
     fluid_detach := fluid_detach s |}.

(** [isIdle]: sources with undefined [idle] are considered always idle. *)
Definition isIdle (s : FluidValue) : bool :=
  match source_idle s with
  | Some false => false
  | _ => true
  end.

(** ** The storage cell *)

(** Modelled from the spec: the typed storage cell behind [getAnimated] and
    [getPayload], which is not in this file; it holds the last stored output
    ([getValue], replaced by [setValue]) and the payload elements. *)
Record Animated : Type := mkAnimated {
  getValue : Value;
  getPayload : list (AnimatedValue NodeState)
}.

(** Modelled from the spec: [setValue] of the storage cell, which is not in
    this file; it replaces the stored output. *)
Definition setValue (v : Value) (a : Animated) : Animated :=
  {| getValue := v; getPayload := getPayload a |}.

(** [each(getPayload(this)!, f)] where [f] mutates the element. *)
Definition each_payload
  (f : AnimatedValue NodeState -> AnimatedValue NodeState) (a : Animated)
  : Animated :=
  {| getValue := getValue a; getPayload := map f (getPayload a) |}.

(** [node.done = true]. *)
Definition set_done (n : AnimatedValue NodeState) : AnimatedValue NodeState :=
  {| done := true; node_state := node_state n |}.

(** ** The node and the world around it *)

Record Interpolation : Type := mkInterpolation {
  id : nat;
  source : OneOrMore FluidValue;
  calc : list Value -> completion Value;
  idle : bool;
  priority : Z;
  animated : Animated
}.

(** The events a parent sends to [onParentChange]; [EvOther] stands for any
    type the method does not test for. *)
Inductive Event : Type :=
| EvStart
| EvChange (value : Value) (event_idle : bool)
| EvPriority (event_priority : Z)
| EvOther.

(** Calls that leave the file, in the order they are made. *)
Inductive Effect : Type :=
| OnChange (value : Value) (idle_flag : bool)
| SuperReset
| SuperStart
| SuperOnParentChange (event : Event)
| FrameLoopStart.

Record World : Type := mkWorld {
  self : Interpolation;
  skipAnimation : bool;
  effects : list Effect
}.

(** ** The monad: state that survives a throw *)

Definition M (A : Type) : Type := World -> completion A * World.

#[local] Instance M_ret : MRet M := fun A a w => (Normal a, w).

#[local] Instance M_bind : MBind M := fun A B k m w =>
  match m w with
  | (Normal a, w') => k a w'
  | (Throw e, w') => (Throw e, w')
  end.

Definition this : M Interpolation := fun w => (Normal (self w), w).

Definition global_skipAnimation : M bool :=
  fun w => (Normal (skipAnimation w), w).

Definition reraise {A : Type} (c : completion A) : M A := fun w => (c, w).

Definition update (f : Interpolation -> Interpolation) : M unit :=
  fun w => (Normal tt,
            {| self := f (self w);
               skipAnimation := skipAnimation w;
               effects := effects w |}).

Definition call (e : Effect) : M unit :=
  fun w => (Normal tt,
            {| self := self w;
               skipAnimation := skipAnimation w;
               effects := effects w ++ [e] |}).

(** A branch that does nothing (an [if] without [else]). *)
Definition nothing : M unit := mret tt.

(** [this.idle = b]. *)
Definition with_idle (b : bool) (n : Interpolation) : Interpolation :=
  {| id := id n; source := source n; calc := calc n;
     idle := b; priority := priority n; animated := animated n |}.

(** [this.priority = p]; the setter belongs to the base class, the write of
    the field is what is modelled. *)
Definition with_priority (p : Z) (n : Interpolation) : Interpolation :=
  {| id := id n; source := source n; calc := calc n;
     idle := idle n; priority := p; animated := animated n |}.

Definition with_source (s : OneOrMore FluidValue) (n : Interpolation)
  : Interpolation :=
  {| id := id n; source := s; calc := calc n;
     idle := idle n; priority := priority n; animated := animated n |}.

Definition with_animated (a : Animated) (n : Interpolation) : Interpolation :=
  {| id := id n; source := source n; calc := calc n;
     idle := idle n; priority := priority n; animated := a |}.

(** [this.get()]: the stored output. *)
Definition get (n : Interpolation) : Value := getValue (animated n).

(** [this._onChange(value, idle)]: the change event handed to the base class
    for the observers; the call is recorded and taken to return. *)
Definition _onChange (value : Value) (idle_flag : bool) : M unit :=
  call (OnChange value idle_flag).

(** ** The methods of the class *)

(** The body of [_get]: read every source ([source.map(node => node.get())]
    for an array, [toArray(source.get())] for a single source) and apply the
    mapping to the inputs. *)
Definition compute (src : OneOrMore FluidValue)
  (f : list Value -> completion Value) : completion Value :=
  completion_bind
    (match src with
     | More l => map_completion fluid_get l
     | One s => completion_bind (fluid_get s) (fun v => Normal (valueToArray v))
     end)
    (fun inputs => f inputs).

Definition _get (n : Interpolation) : completion Value :=
  compute (source n) (calc n).

(** The constructor.  [super()] has set the base-class fields [id] and
    [priority]; the field initialiser sets [idle = true]; the body computes
    the first value and creates the storage cell from it ([create] is
    [getAnimatedType(value).create]). *)
Definition new_Interpolation (base_id : nat) (base_priority : Z)
  (create : Value -> Animated) (src : OneOrMore FluidValue)
  (f : list Value -> completion Value) : completion Interpolation :=
  completion_bind (compute src f) (fun value =>
  Normal {| id := base_id; source := src; calc := f; idle := true;
            priority := base_priority; animated := create value |}).

(** [checkIdle]: set [idle] to true if all sources are idle; return the idle
    status. *)
Definition checkIdle : M bool :=
  n ← this;
  if forallb isIdle (toArray (source n))
  then update (with_idle true) ;; mret true
  else mret false.

(** [onIdle]: the idle-settle sequence. *)
Definition onIdle : M unit :=
  n ← this;
  _onChange (get n) true ;;
  update (fun n => with_animated (each_payload set_done (animated n)) n).

Definition advance : M unit :=
  n ← this;
  value ← reraise (_get n);
  let oldValue := get n in
  if negb (isEqual value oldValue) then
    update (fun n => with_animated (setValue value (animated n)) n) ;;
    n ← this;
    _onChange value (idle n)
  else
    settled ← checkIdle;
    if (settled : bool) then onIdle else nothing.

Definition _reset : M unit :=
  update (fun n => with_animated (each_payload node_reset (animated n)) n) ;;
  call SuperReset.

Definition _start : M unit :=
  update (with_idle false) ;;
  call SuperStart ;;
  skip ← global_skipAnimation;
  if (skip : bool) then
    advance ;;
    update (with_idle true) ;;
    onIdle
  else
    call FrameLoopStart.

(** The body of the loop of [_attach]; the loop-local variables are
    [(idle, priority)], and inside the guard [isFrameValue(source)] the
    source has the fields of a [FrameValue]. *)
Definition attach_body (child : nat) (acc : bool * Z) (s : FluidValue)
  : (bool * Z) * FluidValue :=
  let acc' :=
    match fluid_frame s with
    | Some f =>
        ((if negb (frame_idle f) then false else fst acc),
         Z.max (snd acc) (frame_priority f + 1))
    | None => acc
    end in
  (acc', addChild child s).

Definition _attach : M unit :=
  n ← this;
  let '((all_idle, p), sources) :=
    each_source (attach_body (id n)) (true, 1) (source n) in
  update (with_source sources) ;;
  update (with_priority p) ;;
  if negb all_idle then _reset ;; _start else nothing.

Definition _detach : M unit :=
  n ← this;
  let '(_, sources) :=
    each_source (fun (u : unit) s => (u, removeChild (id n) s)) tt (source n) in
  update (with_source sources) ;;
  update (with_idle true) ;;
  onIdle.

Definition onParentChange (event : Event) : M unit :=
  (match event return M unit with
   | EvStart => advance
   | EvChange _ event_idle =>
       n ← this;
       if idle n then advance
       else if event_idle then
         settled ← checkIdle;
         if (settled : bool) then advance ;; onIdle else nothing
       else nothing
   | EvPriority _ =>
       n ← this;
       update (with_priority
                 (fold_left
                    (fun max s => Z.max max (or_zero (any_priority s) + 1))
                    (toArray (source n)) 0))
   | EvOther => nothing
   end) ;;
  call (SuperOnParentChange event).

(** ** What a call leaves behind *)

(** The world after the node has been replaced by [n] and the calls [es] were
    made. *)
Definition after (w : World) (n : Interpolation) (es : list Effect) : World :=
  {| self := n; skipAnimation := skipAnimation w; effects := effects w ++ es |}.

(** The node after the idle-settle sequence marked its payload. *)
Definition settled_payload (n : Interpolation) : Interpolation :=
  with_animated (each_payload set_done (animated n)) n.

(** The node after a new output was stored. *)
Definition stored (value : Value) (n : Interpolation) : Interpolation :=
  with_animated (setValue value (animated n)) n.

Definition all_idle (n : Interpolation) : bool :=
  forallb isIdle (toArray (source n)).

(** The change events among the calls made. *)
Definition is_change (e : Effect) : bool :=
  match e with OnChange _ _ => true | _ => false end.

Definition changes (es : list Effect) : list Effect :=
  List.filter is_change es.

(** [inputs] are the current values of the sources, as [_get] hands them to
    the mapping. *)
Definition reads (src : OneOrMore FluidValue) (inputs : list Value) : Prop :=
  match src with
  | More l => Forall2 (fun s v => fluid_get s = Normal v) l inputs
  | One s => exists v, fluid_get s = Normal v /\ inputs = valueToArray v
  end.

(** The value the loop of [_attach] leaves in its local [priority]. *)
Definition attach_priority (n : Interpolation) : Z :=
  fold_left
    (fun p s =>
       match fluid_frame s with
       | Some f => Z.max p (frame_priority f + 1)
       | None => p
       end)
    (toArray (source n)) 1.

(** The value the [reduce] of the priority event computes. *)
Definition reduced_priority (n : Interpolation) : Z :=
  fold_left (fun max s => Z.max max (or_zero (any_priority s) + 1))
    (toArray (source n)) 0.

(** The node when the loop of [_attach] is over and [priority] is written. *)
Definition attached (n : Interpolation) : Interpolation :=
  with_priority (attach_priority n)
    (with_source (map_source (addChild (id n)) (source n)) n).

(** The node after [_reset] went over its payload. *)
Definition reset_payload (n : Interpolation) : Interpolation :=
  with_animated (each_payload node_reset (animated n)) n.

(** What no method other than [_attach], [_detach] and the priority event
    touches: the identity, the sources, the mapping and the priority. *)
Definition same_wiring (n n' : Interpolation) : Prop :=
  id n' = id n /\ source n' = source n /\ calc n' = calc n
  /\ priority n' = priority n.

(** The node when the loop of [_detach] is over and [idle] is written. *)
Definition detached (n : Interpolation) : Interpolation :=
  with_idle true (with_source (map_source (removeChild (id n)) (source n)) n).

(** Every element of the payload is marked. *)
Definition all_done (n : Interpolation) : Prop :=
  Forall (fun a => done a = true) (getPayload (animated n)).

(** The idle flag agrees with the sources: an idle node has idle sources. *)
Definition idle_agrees (n : Interpolation) : Prop :=
  idle n = true -> all_idle n = true.

(** What the observers were told between [w] and [w']: every change event
    emitted carries the output that [get()] returns in [w'], and an event
    that says idle was emitted by a node that is idle in [w']. *)
Definition announced (w w' : World) : Prop :=
  exists es, effects w' = effects w ++ es
    /\ forall v b, In (OnChange v b) es ->
         v = get (self w') /\ (b = true -> idle (self w') = true).

(** Modelled from the spec: the frame driver, which is not in this file,
    ticks the nodes that are not idle (idle nodes are not ticked). *)
Definition ticked (n : Interpolation) : bool := negb (idle n).

End Interpolation.

Arguments Normal {Co A} a.
Arguments Throw {Co A} e.

(** * A concrete graph

    Numbers as values, one kind of exception, payload elements without further
    state.  The node [7] doubles the value of its single source. *)

Module Scenario.

Definition numbers : Collaborators :=
  {| Value := Z;
     Error := unit;
     NodeState := unit;
     isEqual := Z.eqb;
     valueToArray := fun v => [v];
     node_reset := fun n => mkAnimatedValue false (node_state n) |}.

Definition doubling (inputs : list Z) : @completion numbers Z :=
  match inputs with
  | [x] => @Normal numbers Z (2 * x)
  | _ => @Throw numbers Z tt
  end.

(** An animated source: a [FrameValue] holding [v]. *)
Definition spring (v : Z) (is_idle : bool) (p : Z) (children : gset nat)
  : @FluidValue numbers :=
  @mkFluid numbers (@Normal numbers Z v) (Some (mkFrame is_idle p)) None
    children (fun f => f) (fun f => f).

(** A source that is not a [FrameValue]. *)
Definition plain (v : Z) (children : gset nat) : @FluidValue numbers :=
  @mkFluid numbers (@Normal numbers Z v) None None children
    (fun f => f) (fun f => f).

(** A derived source that has no observer yet: a node of priority 0 over a
    parent of priority [p].  When it gains its first observer it attaches,
    which sets its priority to [max(1, p + 1)] as [_attach] does; when it
    loses its last one it detaches, which sets its idle flag. *)
Definition unobserved (v : Z) (p : Z) : @FluidValue numbers :=
  @mkFluid numbers (@Normal numbers Z v) (Some (mkFrame true 0)) None ∅
    (fun f => mkFrame (frame_idle f) (Z.max 1 (p + 1)))
    (fun f => mkFrame true (frame_priority f)).

(** A source whose read throws. *)
Definition unreadable : @FluidValue numbers :=
  @mkFluid numbers (@Throw numbers Z tt) (Some (mkFrame true 0)) None
    {[ 7%nat ]} (fun f => f) (fun f => f).

(** The node [7] over [src], with [out] stored in a cell of one element. *)
Definition node (src : @FluidValue numbers) (is_idle : bool) (p : Z) (out : Z)
  : @Interpolation numbers :=
  @mkInterpolation numbers 7%nat (One src) doubling is_idle p
    (@mkAnimated numbers out [mkAnimatedValue false tt]).

Definition world (n : @Interpolation numbers) (skip : bool)
  : @World numbers :=
  @mkWorld numbers n skip [].

(** The storage cell a number gets: one payload element, not yet done. *)
Definition create (v : Z) : @Animated numbers :=
  @mkAnimated numbers v [mkAnimatedValue false tt].

(** The mapping of a node that adds up its sources. *)
Definition summing (inputs : list Z) : @completion numbers Z :=
  @Normal numbers Z (fold_right Z.add 0 inputs).

(** The node [9] that adds up the sources [srcs], idle, with [out] stored. *)
Definition sum_node (srcs : list (@FluidValue numbers)) (out : Z)
  : @Interpolation numbers :=
  @mkInterpolation numbers 9%nat (More srcs) summing true 0 (create out).

End Scenario.

(** * Properties *)

Section Properties.

Context `{Co : Collaborators}.

Lemma after_same (w : World) : after w (self w) [] = w.
Proof. destruct w. unfold after. simpl. by rewrite app_nil_r. Qed.

Lemma after_after (w : World) n es n' es' :
  after (after w n es) n' es' = after w n' (es ++ es').
Proof. unfold after. simpl. by rewrite app_assoc. Qed.

(** *** Single steps of the monad *)

Lemma onIdle_run (w : World) :
  onIdle w = (Normal tt,
              after w (settled_payload (self w)) [OnChange (get (self w)) true]).
Proof. reflexivity. Qed.

Lemma checkIdle_run (w : World) :
  checkIdle w =
    if all_idle (self w)
    then (Normal true, after w (with_idle true (self w)) [])
    else (Normal false, w).
Proof.
  unfold checkIdle, all_idle, mbind, M_bind, this. simpl.
  destruct (forallb isIdle (toArray (source (self w)))); simpl; [|done].
  unfold after. simpl. by rewrite app_nil_r.
Qed.

Lemma advance_throw (w : World) (e : Error) :
  _get (self w) = Throw e -> advance w = (Throw e, w).
Proof.
  intros H. unfold advance, mbind, M_bind, this, reraise. simpl. by rewrite H.
Qed.

Lemma advance_changed (w : World) (value : Value) :
  _get (self w) = Normal value ->
  isEqual value (get (self w)) = false ->
  advance w = (Normal tt,
               after w (stored value (self w))
                 [OnChange value (idle (self w))]).
Proof.
  intros Hget Hne. unfold advance, mbind, M_bind, this, reraise. simpl.
  rewrite Hget, Hne. reflexivity.
Qed.

Lemma advance_settled (w : World) (value : Value) :
  _get (self w) = Normal value ->
  isEqual value (get (self w)) = true ->
  all_idle (self w) = true ->
  advance w = (Normal tt,
               after w (settled_payload (with_idle true (self w)))
                 [OnChange (get (self w)) true]).
Proof.
  intros Hget Heq Hidle. unfold advance, mbind, M_bind, this, reraise. simpl.
  rewrite Hget, Heq. simpl. rewrite checkIdle_run, Hidle, onIdle_run.
  by rewrite after_after.
Qed.

Lemma advance_waiting (w : World) (value : Value) :
  _get (self w) = Normal value ->
  isEqual value (get (self w)) = true ->
  all_idle (self w) = false ->
  advance w = (Normal tt, w).
Proof.
  intros Hget Heq Hidle. unfold advance, mbind, M_bind, this, reraise. simpl.
  rewrite Hget, Heq. simpl. by rewrite checkIdle_run, Hidle.
Qed.

Lemma advance_cases (w : World) :
  (exists e, _get (self w) = Throw e /\ advance w = (Throw e, w))
  \/ (exists v, _get (self w) = Normal v
       /\ isEqual v (get (self w)) = false
       /\ advance w = (Normal tt,
                       after w (stored v (self w))
                         [OnChange v (idle (self w))]))
  \/ (exists v, _get (self w) = Normal v
       /\ isEqual v (get (self w)) = true
       /\ all_idle (self w) = true
       /\ advance w = (Normal tt,
                       after w (settled_payload (with_idle true (self w)))
                         [OnChange (get (self w)) true]))
  \/ (exists v, _get (self w) = Normal v
       /\ isEqual v (get (self w)) = true
       /\ all_idle (self w) = false
       /\ advance w = (Normal tt, w)).
Proof.
  destruct (_get (self w)) as [v|e] eqn:Hget.
  - destruct (isEqual v (get (self w))) eqn:Heq.
    + destruct (all_idle (self w)) eqn:Hidle.
      * right; right; left. exists v. eauto using advance_settled.
      * right; right; right. exists v. eauto using advance_waiting.
    + right; left. exists v. eauto using advance_changed.
  - left. exists e. eauto using advance_throw.
Qed.

Lemma _start_run (w : World) :
  _start w =
    if skipAnimation w then
      match advance (after w (with_idle false (self w)) [SuperStart]) with
      | (Normal _, w1) =>
          (Normal tt,
           after w1 (settled_payload (with_idle true (self w1)))
             [OnChange (get (self w1)) true])
      | (Throw e, w1) => (Throw e, w1)
      end
    else
      (Normal tt, after w (with_idle false (self w)) [SuperStart; FrameLoopStart]).
Proof.
  unfold _start, mbind, M_bind, update, call, global_skipAnimation. simpl.
  destruct (skipAnimation w) eqn:Hskip.
  - unfold after. simpl. rewrite Hskip.
    destruct (advance _) as [[[]|e] w1]; [|done].
    by rewrite onIdle_run.
  - unfold after. simpl. rewrite Hskip. by rewrite <- app_assoc.
Qed.

(** *** The loop of [_attach] *)

Lemma each_acc_attach (child : nat) (l : list FluidValue) (i : bool) (p : Z) :
  each_acc (attach_body child) (i, p) l =
    ((i && forallb isIdle l,
      fold_left
        (fun p s =>
           match fluid_frame s with
           | Some f => Z.max p (frame_priority f + 1)
           | None => p
           end) l p),
     map (addChild child) l).
Proof.
  revert i p. induction l as [|s l IH]; intros i p; simpl.
  - by rewrite andb_true_r.
  - unfold attach_body at 1. unfold isIdle, source_idle.
    destruct (fluid_frame s) as [[fi fp]|]; simpl.
    + rewrite IH. destruct fi; simpl; [done|]. by rewrite andb_false_r.
    + rewrite IH. done.
Qed.

Lemma each_source_attach (n : Interpolation) :
  each_source (attach_body (id n)) (true, 1) (source n) =
    ((all_idle n, attach_priority n),
     map_source (addChild (id n)) (source n)).
Proof.
  unfold all_idle, attach_priority.
  destruct (source n) as [s|l]; simpl.
  - pose proof (each_acc_attach (id n) [s] true 1) as E. simpl in E.
    destruct (attach_body (id n) (true, 1) s) as [acc s'].
    by inversion E.
  - by rewrite each_acc_attach.
Qed.

Lemma _attach_run (w : World) :
  _attach w =
    if all_idle (self w)
    then (Normal tt, after w (attached (self w)) [])
    else _start (after w (reset_payload (attached (self w))) [SuperReset]).
Proof.
  unfold _attach, mbind, M_bind, this. simpl.
  rewrite each_source_attach. simpl.
  destruct (all_idle (self w)); simpl.
  - unfold after, nothing, mret, M_ret, attached. simpl. by rewrite app_nil_r.
  - reflexivity.
Qed.

(** *** [_detach] and the parent's change event *)

Lemma each_acc_map {A : Type} (f : A -> A) (l : list A) :
  each_acc (fun (u : unit) a => (u, f a)) tt l = (tt, map f l).
Proof. induction l as [|a l IH]; simpl; [done|by rewrite IH]. Qed.

Lemma each_source_map {A : Type} (f : A -> A) (x : OneOrMore A) :
  each_source (fun (u : unit) a => (u, f a)) tt x = (tt, map_source f x).
Proof. destruct x as [a|l]; simpl; [done|by rewrite each_acc_map]. Qed.

Lemma _detach_run (w : World) :
  _detach w =
    (Normal tt,
     after w (settled_payload (detached (self w)))
       [OnChange (get (self w)) true]).
Proof.
  unfold _detach, mbind, M_bind, this. simpl.
  rewrite each_source_map. reflexivity.
Qed.

Lemma settled_payload_all_done (n : Interpolation) :
  all_done (settled_payload n).
Proof.
  unfold all_done, settled_payload. simpl.
  induction (getPayload (animated n)); simpl; by constructor.
Qed.

(** The branch of the change event that leaves the frame loop. *)
Lemma onParentChange_leave_run (w : World) (x : Value) :
  idle (self w) = false ->
  all_idle (self w) = true ->
  onParentChange (EvChange x true) w =
    match advance (after w (with_idle true (self w)) []) with
    | (Normal _, w1) =>
        (Normal tt,
         after w1 (settled_payload (self w1))
           [OnChange (get (self w1)) true;
            SuperOnParentChange (EvChange x true)])
    | (Throw e, w1) => (Throw e, w1)
    end.
Proof.
  intros Hactive Hidle.
  unfold onParentChange, mbind, M_bind, this. simpl. rewrite Hactive.
  rewrite checkIdle_run, Hidle.
  destruct (advance _) as [[[]|e] w1]; [|done].
  rewrite onIdle_run. unfold call, after. simpl. by rewrite <- app_assoc.
Qed.

Lemma onParentChange_leave (w : World) (x v : Value) :
  idle (self w) = false ->
  all_idle (self w) = true ->
  _get (self w) = Normal v ->
  onParentChange (EvChange x true) w =
    (Normal tt,
     after w
       (settled_payload
          (if isEqual v (get (self w))
           then settled_payload (with_idle true (self w))
           else stored v (with_idle true (self w))))
       [OnChange (if isEqual v (get (self w)) then get (self w) else v) true;
        OnChange (if isEqual v (get (self w)) then get (self w) else v) true;
        SuperOnParentChange (EvChange x true)]).
Proof.
  intros Hactive Hidle Hget. rewrite onParentChange_leave_run by done.
  destruct (isEqual v (get (self w))) eqn:Heq.
  - rewrite (advance_settled _ v) by done. simpl.
    unfold after. simpl. by rewrite app_nil_r, <- app_assoc.
  - rewrite (advance_changed _ v) by done. simpl.
    unfold after. simpl. by rewrite app_nil_r, <- app_assoc.
Qed.

(** *** What the methods leave alone *)


Lemma same_wiring_trans (n1 n2 n3 : Interpolation) :
  same_wiring n1 n2 -> same_wiring n2 n3 -> same_wiring n1 n3.
Proof. unfold same_wiring. intros (?&?&?&?) (?&?&?&?). repeat split; congruence. Qed.

Lemma advance_footprint (w w' : World) r :
  advance w = (r, w') ->
  same_wiring (self w) (self w')
  /\ skipAnimation w' = skipAnimation w
  /\ exists es, effects w' = effects w ++ es /\ changes es = es.
Proof.
  intros Hrun.
  destruct (advance_cases w) as
    [(e & _ & E)|[(v & _ & _ & E)|[(v & _ & _ & _ & E)|(v & _ & _ & _ & E)]]];
    rewrite E in Hrun; inversion Hrun; subst; clear Hrun;
    (split; [by unfold same_wiring|split; [done|]]).
  - exists []. by rewrite app_nil_r.
  - by eexists.
  - by eexists.
  - exists []. by rewrite app_nil_r.
Qed.

Lemma _start_footprint (w w' : World) r :
  _start w = (r, w') ->
  same_wiring (self w) (self w')
  /\ skipAnimation w' = skipAnimation w
  /\ exists es, effects w' = effects w ++ SuperStart :: es
      /\ (if skipAnimation w then changes es = es else es = [FrameLoopStart]).
Proof.
  rewrite _start_run. destruct (skipAnimation w) eqn:Hskip.
  - destruct (advance _) as [r1 w1] eqn:Hadv.
    destruct (advance_footprint _ _ _ Hadv) as (Hw & Hs & es & He & Hc).
    simpl in Hw, Hs, He.
    destruct r1 as [[]|e]; intros Hrun; inversion Hrun; subst; clear Hrun; simpl.
    + split; [by destruct Hw as (?&?&?&?)|split; [by rewrite Hs|]].
      exists (es ++ [OnChange (get (self w1)) true]).
      rewrite He, <- !app_assoc. split; [done|].
      unfold changes in *. by rewrite List.filter_app, Hc.
    + split; [done|split; [by rewrite Hs|]].
      exists es. by rewrite He, <- app_assoc.
  - intros Hrun; inversion Hrun; subst; clear Hrun; simpl.
    split; [by unfold same_wiring|split; [done|]]. by eexists.
Qed.


(** *** Priorities *)

Lemma or_zero_Some (p : Z) : or_zero (Some p) = p.
Proof. simpl. destruct (Z.eqb_spec p 0); lia. Qed.


Lemma toArray_map_source {A B : Type} (f : A -> B) (x : OneOrMore A) :
  toArray (map_source f x) = map f (toArray x).
Proof. by destruct x. Qed.


Lemma reduce_fold_bounds (l : list FluidValue) (m0 : Z) :
  let r := fold_left
             (fun max s => Z.max max (or_zero (any_priority s) + 1)) l m0 in
  m0 <= r /\ (forall s, In s l -> or_zero (any_priority s) < r).
Proof.
  revert m0. induction l as [|s l IH]; intros m0; simpl.
  - split; [lia|tauto].
  - match goal with |- context [fold_left ?f l ?q] =>
      destruct (IH q) as (Hle & Habove) end.
    split; [lia|]. intros s' [<-|Hin]; [lia|by apply Habove].
Qed.

Lemma onParentChange_priority_run (w : World) (x : Z) :
  onParentChange (EvPriority x) w =
    (Normal tt,
     after w (with_priority (reduced_priority (self w)) (self w))
       [SuperOnParentChange (EvPriority x)]).
Proof. reflexivity. Qed.

(** *** The idle flag *)

Lemma changes_no_frame_loop (es : list Effect) :
  changes es = es -> ~ In FrameLoopStart es.
Proof.
  intros Hes Hin. rewrite <- Hes in Hin.
  apply List.filter_In in Hin as [_ Hchange]. discriminate Hchange.
Qed.

Lemma all_idle_wiring (n n' : Interpolation) :
  same_wiring n n' -> all_idle n' = all_idle n.
Proof. intros (_ & Hsrc & _). unfold all_idle. by rewrite Hsrc. Qed.

Lemma advance_idle_agrees (w w' : World) r :
  idle_agrees (self w) -> advance w = (r, w') -> idle_agrees (self w').
Proof.
  intros Hinv Hrun.
  destruct (advance_cases w) as
    [(e & _ & E)|[(v & _ & _ & E)|[(v & _ & _ & Hidle & E)|(v & _ & _ & _ & E)]]];
    rewrite E in Hrun; inversion Hrun; subst; clear Hrun; try done.
  by intros _.
Qed.

Lemma onParentChange_idle_agrees (w w' : World) ev r :
  idle_agrees (self w) -> onParentChange ev w = (r, w') ->
  idle_agrees (self w').
Proof.
  intros Hinv. unfold onParentChange, mbind, M_bind, this.
  destruct ev as [|x event_idle|x|]; simpl.
  - destruct (advance w) as [r1 w1] eqn:Hadv.
    pose proof (advance_idle_agrees _ _ _ Hinv Hadv) as Hinv1.
    destruct r1; intros Hrun; inversion Hrun; by subst.
  - destruct (idle (self w)) eqn:Hflag.
    + destruct (advance w) as [r1 w1] eqn:Hadv.
      pose proof (advance_idle_agrees _ _ _ Hinv Hadv) as Hinv1.
      destruct r1; intros Hrun; inversion Hrun; by subst.
    + destruct event_idle; [|intros Hrun; inversion Hrun; by subst].
      rewrite checkIdle_run.
      destruct (all_idle (self w)) eqn:Hidle;
        [|intros Hrun; inversion Hrun; by subst].
      destruct (advance _) as [r1 w1] eqn:Hadv.
      assert (Hinv1 : idle_agrees (self w1)).
      { apply (advance_idle_agrees (after w (with_idle true (self w)) [])
                 w1 r1); [intros _; exact Hidle|exact Hadv]. }
      destruct r1 as [[]|e]; intros Hrun; inversion Hrun; by subst.
  - intros Hrun; inversion Hrun; by subst.
  - intros Hrun; inversion Hrun; by subst.
Qed.

(** *** Reading the sources *)

Lemma map_completion_reads (l : list FluidValue) (inputs : list Value) :
  Forall2 (fun s v => fluid_get s = Normal v) l inputs ->
  map_completion fluid_get l = Normal inputs.
Proof.
  induction 1 as [|s v l vs Hs _ IH]; simpl; [done|].
  by rewrite Hs, IH.
Qed.

Lemma compute_reads (src : OneOrMore FluidValue) f (inputs : list Value) :
  reads src inputs -> compute src f = f inputs.
Proof.
  destruct src as [s|l]; simpl.
  - intros (v & Hv & ->). unfold compute. by rewrite Hv.
  - intros Hl. unfold compute. by rewrite (map_completion_reads _ _ Hl).
Qed.

Lemma _get_reads (n : Interpolation) (inputs : list Value) :
  reads (source n) inputs -> _get n = calc n inputs.
Proof. apply compute_reads. Qed.

Lemma map_completion_cases (l : list FluidValue) :
  (exists inputs, Forall2 (fun s v => fluid_get s = Normal v) l inputs)
  \/ (exists s e, In s l /\ fluid_get s = Throw e
                 /\ map_completion fluid_get l = Throw e).
Proof.
  induction l as [|s l IH]; simpl.
  - left. exists []. constructor.
  - destruct (fluid_get s) as [v|e] eqn:Hs.
    + destruct IH as [(vs & Hvs)|(s' & e & Hin & Hs' & Hl)].
      * left. exists (v :: vs). by constructor.
      * right. exists s', e. simpl. rewrite Hl. eauto.
    + right. exists s, e. eauto.
Qed.

(** [_get] throws only what a source's read or the mapping throws. *)
Lemma _get_throws (n : Interpolation) (e : Error) :
  _get n = Throw e ->
  (exists s, In s (toArray (source n)) /\ fluid_get s = Throw e)
  \/ (exists inputs, reads (source n) inputs /\ calc n inputs = Throw e).
Proof.
  unfold _get, compute. destruct (source n) as [s|l]; simpl.
  - destruct (fluid_get s) as [v|e'] eqn:Hs; simpl.
    + intros Hcalc. right. exists (valueToArray v). split; [by exists v|done].
    + intros [= ->]. left. exists s. eauto.
  - destruct (map_completion_cases l) as [(vs & Hvs)|(s & e' & Hin & Hs & Hl)].
    + rewrite (map_completion_reads _ _ Hvs). simpl. intros Hcalc.
      right. by exists vs.
    + rewrite Hl. simpl. intros [= ->]. left. by exists s.
Qed.

(** C1, as amended: [advance] reads the current value of every source and
    applies the mapping to them.  When the fresh output is not equal
    ([isEqual]) to the stored one, it replaces the stored output and emits
    exactly one change event, carrying the new value and the node's current
    idle flag (false for a node in the frame loop, true for an idle node that
    recomputes on a parent event).  When it is equal and every source is idle,
    it sets the idle flag and runs the idle-settle sequence.  When it is equal
    and some source is not idle, nothing is emitted and the world is left as
    it was. *)
Theorem advance_recomputes (w : World) (inputs : list Value) (value : Value) :
  reads (source (self w)) inputs ->
  calc (self w) inputs = Normal value ->
  (isEqual value (get (self w)) = false ->
   advance w = (Normal tt,
                after w (stored value (self w))
                  [OnChange value (idle (self w))]))
  /\ (isEqual value (get (self w)) = true ->
      all_idle (self w) = true ->
      advance w = (Normal tt,
                   after w (settled_payload (with_idle true (self w)))
                     [OnChange (get (self w)) true]))
  /\ (isEqual value (get (self w)) = true ->
      all_idle (self w) = false ->
      advance w = (Normal tt, w)).
Proof.
  intros Hreads Hcalc.
  assert (Hget : _get (self w) = Normal value)
    by (by rewrite (_get_reads _ _ Hreads)).
  split; [|split].
  - by apply advance_changed.
  - by apply advance_settled.
  - by apply advance_waiting.
Qed.


(** C3, as amended: one run of the idle-settle sequence emits exactly one
    change event, carrying the stored output and idle = true, and then marks
    every element of the payload as done.  [_detach] runs it once, and so
    does an [advance] that finds the output unchanged and every source idle.
    On a parent's change event that reports collective idleness the node
    recomputes and then runs the sequence: two change events with idle = true
    are emitted, both carrying the output the node then stores (the first is
    the recompute's own: the new value, or the settle of an unchanged one). *)
Theorem idle_settle_sequence (w : World) :
  (onIdle w = (Normal tt,
               after w (settled_payload (self w))
                 [OnChange (get (self w)) true])
   /\ all_done (settled_payload (self w))
   /\ get (settled_payload (self w)) = get (self w))
  /\ (exists w', _detach w = (Normal tt, w')
        /\ idle (self w') = true
        /\ all_done (self w')
        /\ effects w' = effects w ++ [OnChange (get (self w')) true])
  /\ (forall v, _get (self w) = Normal v ->
        isEqual v (get (self w)) = true ->
        all_idle (self w) = true ->
        exists w', advance w = (Normal tt, w')
          /\ idle (self w') = true
          /\ all_done (self w')
          /\ effects w' = effects w ++ [OnChange (get (self w')) true])
  /\ (forall x v, idle (self w) = false ->
        all_idle (self w) = true ->
        _get (self w) = Normal v ->
        exists w', onParentChange (EvChange x true) w = (Normal tt, w')
          /\ idle (self w') = true
          /\ all_done (self w')
          /\ effects w' =
               effects w ++ [OnChange (get (self w')) true;
                             OnChange (get (self w')) true;
                             SuperOnParentChange (EvChange x true)]).
Proof.
  split; [|split; [|split]].
  - split; [apply onIdle_run|split; [apply settled_payload_all_done|done]].
  - eexists. split; [apply _detach_run|]. simpl.
    split; [done|split; [apply settled_payload_all_done|done]].
  - intros v Hget Heq Hidle. eexists.
    split; [by apply (advance_settled _ v)|]. simpl.
    split; [done|split; [apply settled_payload_all_done|done]].
  - intros x v Hactive Hidle Hget. eexists.
    split; [by apply (onParentChange_leave _ x v)|]. simpl.
    split; [by destruct (isEqual v (get (self w)))|].
    split; [apply settled_payload_all_done|].
    by destruct (isEqual v (get (self w))).
Qed.

(** C4: on a change event that reports its source idle, received while the
    node is not idle and every source is idle, the node recomputes its output
    once more (the recompute returning [v]), sets its idle flag to true and
    runs the idle-settle sequence: within that callback it becomes idle and
    the last change event it emits carries the stored output and
    idle = true. *)
Theorem onParentChange_idle_convergence (w : World) (x v : Value) :
  idle (self w) = false ->
  all_idle (self w) = true ->
  _get (self w) = Normal v ->
  exists w' es,
    onParentChange (EvChange x true) w = (Normal tt, w')
    /\ idle (self w') = true
    /\ get (self w') = (if isEqual v (get (self w)) then get (self w) else v)
    /\ all_done (self w')
    /\ changes es = es
    /\ effects w' =
         effects w ++ es ++ [OnChange (get (self w')) true;
                             SuperOnParentChange (EvChange x true)].
Proof.
  intros Hactive Hidle Hget.
  eexists. exists [OnChange (if isEqual v (get (self w))
                             then get (self w) else v) true].
  split; [by apply (onParentChange_leave _ x v)|]. simpl.
  split; [by destruct (isEqual v (get (self w)))|].
  split; [by destruct (isEqual v (get (self w)))|].
  split; [apply settled_payload_all_done|].
  split; [done|]. by destruct (isEqual v (get (self w))).
Qed.

(** C6: [_detach] removes the node from the child set of every source,
    forces its idle flag to true and runs the idle-settle sequence, so a
    final change event with idle = true is emitted; afterwards no source has
    the node as a child and the frame driver does not tick it. *)
Theorem detach_cleans_up (w : World) :
  exists w',
    _detach w = (Normal tt, w')
    /\ source (self w') =
         map_source (removeChild (id (self w))) (source (self w))
    /\ (forall s, In s (toArray (source (self w'))) ->
         id (self w) ∉ fluid_children s)
    /\ idle (self w') = true
    /\ effects w' = effects w ++ [OnChange (get (self w)) true]
    /\ get (self w') = get (self w)
    /\ all_done (self w')
    /\ ticked (self w') = false.
Proof.
  eexists. split; [apply _detach_run|]. simpl.
  split; [done|split].
  - rewrite toArray_map_source. intros s' Hin.
    apply in_map_iff in Hin as (s & <- & _). simpl.
    intros Hchild. apply elem_of_difference in Hchild as [_ Hother].
    apply Hother. by apply elem_of_singleton.
  - repeat split; try done. apply settled_payload_all_done.
Qed.

(** C10: on the idle-propagation path of a change event [checkIdle] sets the
    idle flag before [advance] runs; when the recomputed value differs from
    the stored output, that [advance] emits its change event with idle = true
    and the idle-settle sequence emits a second one: two change events in
    one callback. *)
Theorem onParentChange_emits_idle_twice (w : World) (x v : Value) :
  idle (self w) = false ->
  all_idle (self w) = true ->
  _get (self w) = Normal v ->
  isEqual v (get (self w)) = false ->
  checkIdle w = (Normal true, after w (with_idle true (self w)) [])
  /\ advance (after w (with_idle true (self w)) []) =
       (Normal tt,
        after w (stored v (with_idle true (self w))) [OnChange v true])
  /\ onParentChange (EvChange x true) w =
       (Normal tt,
        after w (settled_payload (stored v (with_idle true (self w))))
          [OnChange v true; OnChange v true;
           SuperOnParentChange (EvChange x true)]).
Proof.
  intros Hactive Hidle Hget Hne. split; [|split].
  - by rewrite checkIdle_run, Hidle.
  - rewrite (advance_changed _ v) by done. by rewrite after_after.
  - rewrite (onParentChange_leave _ x v) by done. by rewrite Hne.
Qed.

(** C7, as amended: a node whose idle flag agrees with its sources (idle
    only if every source is idle, sources without an idle flag counting as
    idle) still agrees with them after [advance] and after every
    [onParentChange] event, however the call ends, and after [_start] when
    the global [skipAnimation] is not set: these set the flag to true only
    through [checkIdle].  The field initialiser, [_detach] and [_start]
    under [skipAnimation] write true without looking at the sources. *)
Theorem idle_flag_follows_sources (w : World) :
  idle_agrees (self w) ->
  (forall r w', advance w = (r, w') -> idle_agrees (self w'))
  /\ (forall ev r w', onParentChange ev w = (r, w') -> idle_agrees (self w'))
  /\ (skipAnimation w = false ->
      forall r w', _start w = (r, w') -> idle_agrees (self w'))
  /\ (forall i p create src f n,
        new_Interpolation i p create src f = Normal n -> idle n = true)
  /\ idle (self (snd (_detach w))) = true
  /\ (skipAnimation w = true ->
      forall w', _start w = (Normal tt, w') -> idle (self w') = true).
Proof.
  intros Hinv. split; [|split; [|split; [|split; [|split]]]].
  - intros r w'. by apply advance_idle_agrees.
  - intros ev r w'. by apply onParentChange_idle_agrees.
  - intros Hskip r w'. rewrite _start_run, Hskip.
    intros Hrun; inversion Hrun; subst. by intros Hflag.
  - intros i p create src f n. unfold new_Interpolation.
    destruct (compute src f); simpl; [|done]. by intros [= <-].
  - by rewrite _detach_run.
  - intros Hskip w'. rewrite _start_run, Hskip.
    destruct (advance _) as [[[]|e] w1]; [|done].
    intros Hrun; by inversion Hrun.
Qed.

(** C8: when reading a source or applying the mapping throws, [advance]
    throws the same error and leaves the world as it was; a parent event
    that triggers the recompute throws it too, and whatever the event, the
    storage cell (stored output and payload) is what it was before the
    call.  On the path that leaves the frame loop the idle flag has been set
    by then; the cell has not been touched. *)
Theorem failed_recompute_keeps_output (w : World) (e : Error) :
  _get (self w) = Throw e ->
  advance w = (Throw e, w)
  /\ onParentChange EvStart w = (Throw e, w)
  /\ (forall x event_idle, idle (self w) = true ->
        onParentChange (EvChange x event_idle) w = (Throw e, w))
  /\ (forall x, idle (self w) = false -> all_idle (self w) = true ->
        onParentChange (EvChange x true) w =
          (Throw e, after w (with_idle true (self w)) []))
  /\ (forall ev r w', onParentChange ev w = (r, w') ->
        animated (self w') = animated (self w)).
Proof.
  intros Hget.
  assert (Hadv : advance w = (Throw e, w)) by by apply advance_throw.
  assert (Hstart : onParentChange EvStart w = (Throw e, w)).
  { unfold onParentChange, mbind, M_bind. by rewrite Hadv. }
  assert (Hidle : forall x event_idle, idle (self w) = true ->
            onParentChange (EvChange x event_idle) w = (Throw e, w)).
  { intros x event_idle Hflag.
    unfold onParentChange, mbind, M_bind, this. simpl.
    by rewrite Hflag, Hadv. }
  assert (Hleave : forall x, idle (self w) = false ->
            all_idle (self w) = true ->
            onParentChange (EvChange x true) w =
              (Throw e, after w (with_idle true (self w)) [])).
  { intros x Hflag Hall. rewrite onParentChange_leave_run by done.
    by rewrite (advance_throw _ e). }
  repeat (split; [done|]).
  intros ev r w'. destruct ev as [|x event_idle|x|].
  - rewrite Hstart. intros Hrun; by inversion Hrun.
  - destruct (idle (self w)) eqn:Hflag.
    + rewrite Hidle by done. intros Hrun; by inversion Hrun.
    + destruct event_idle.
      * destruct (all_idle (self w)) eqn:Hall.
        -- rewrite Hleave by done. intros Hrun; by inversion Hrun.
        -- unfold onParentChange, mbind, M_bind, this. simpl.
           rewrite Hflag, checkIdle_run, Hall.
           intros Hrun; by inversion Hrun.
      * unfold onParentChange, mbind, M_bind, this. simpl. rewrite Hflag.
        intros Hrun; by inversion Hrun.
  - intros Hrun; by inversion Hrun.
  - intros Hrun; by inversion Hrun.
Qed.

(** C9: when the global [skipAnimation] is set, [_start] clears the idle
    flag, calls the base class, performs one [advance], sets the idle flag
    back to true and runs the idle-settle sequence; the frame loop is not
    asked to start the node, by [_start] or by an [_attach] that finds a
    source still animating. *)
Theorem start_skipAnimation (w : World) :
  skipAnimation w = true ->
  _start w =
    match advance (after w (with_idle false (self w)) [SuperStart]) with
    | (Normal _, w1) =>
        (Normal tt,
         after w1 (settled_payload (with_idle true (self w1)))
           [OnChange (get (self w1)) true])
    | (Throw e, w1) => (Throw e, w1)
    end
  /\ (forall r w', _start w = (r, w') ->
        exists es, effects w' = effects w ++ es /\ ~ In FrameLoopStart es)
  /\ (forall w', _start w = (Normal tt, w') ->
        idle (self w') = true /\ all_done (self w')
        /\ exists es, effects w' = effects w ++ es ++ [OnChange (get (self w')) true])
  /\ (forall r w', _attach w = (r, w') ->
        exists es, effects w' = effects w ++ es /\ ~ In FrameLoopStart es).
Proof.
  intros Hskip.
  assert (Hstart : forall w0 r w', skipAnimation w0 = true ->
            _start w0 = (r, w') ->
            exists es, effects w' = effects w0 ++ es
                       /\ ~ In FrameLoopStart es).
  { intros w0 r w' Hskip0 Hrun.
    destruct (_start_footprint _ _ _ Hrun) as (_ & _ & es & He & Hes).
    rewrite Hskip0 in Hes. exists (SuperStart :: es). split; [done|].
    intros [Hin|Hin]; [discriminate Hin|].
    by apply (changes_no_frame_loop es). }
  split; [by rewrite _start_run, Hskip|split; [|split]].
  - intros r w'. by apply Hstart.
  - intros w'. rewrite _start_run, Hskip.
    destruct (advance _) as [[[]|e] w1] eqn:Hadv; [|done].
    destruct (advance_footprint _ _ _ Hadv) as (_ & _ & es & He & _).
    simpl in He. intros Hrun; inversion Hrun; subst; clear Hrun. simpl.
    split; [done|split; [apply settled_payload_all_done|]].
    exists (SuperStart :: es). by rewrite He, <- !app_assoc.
  - intros r w'. rewrite _attach_run.
    destruct (all_idle (self w)).
    + intros Hrun; inversion Hrun; subst. exists []. simpl.
      split; [done|tauto].
    + intros Hrun.
      apply Hstart in Hrun as (es & He & Hes); [|exact Hskip].
      simpl in He. exists (SuperReset :: es).
      rewrite He, <- app_assoc. split; [done|].
      intros [Hin|Hin]; [discriminate Hin|by apply Hes].
Qed.

(** ** Further properties of the methods *)

Lemma onParentChange_advance_run (w : World) (ev : Event) :
  (ev = EvStart
   \/ exists x b, ev = EvChange x b /\ idle (self w) = true) ->
  onParentChange ev w =
    match advance w with
    | (Normal _, w1) =>
        (Normal tt, after w1 (self w1) [SuperOnParentChange ev])
    | (Throw e, w1) => (Throw e, w1)
    end.
Proof.
  intros [->|(x & b & -> & Hflag)];
    unfold onParentChange, mbind, M_bind, this; simpl.
  - by destruct (advance w) as [[[]|e] w1].
  - rewrite Hflag. by destruct (advance w) as [[[]|e] w1].
Qed.

Lemma onParentChange_forward_run (w : World) (ev : Event) :
  (ev = EvOther
   \/ exists x b, ev = EvChange x b /\ idle (self w) = false
        /\ (b = false \/ all_idle (self w) = false)) ->
  onParentChange ev w =
    (Normal tt, after w (self w) [SuperOnParentChange ev]).
Proof.
  intros [->|(x & b & -> & Hflag & Hwhy)];
    unfold onParentChange, mbind, M_bind, this; simpl; [done|].
  rewrite Hflag. destruct b; [|done].
  destruct Hwhy as [Hb|Hidle]; [done|]. by rewrite checkIdle_run, Hidle.
Qed.

(** X1: [_get] stops at the first source whose read throws: when the
    sources before it read normally, [_get] throws that source's error,
    whatever the mapping and the later sources are. *)
Theorem get_first_failing_read (n : Interpolation)
  (before rest : list FluidValue) (s : FluidValue) (vs : list Value)
  (e : Error) :
  toArray (source n) = before ++ s :: rest ->
  Forall2 (fun s v => fluid_get s = Normal v) before vs ->
  fluid_get s = Throw e ->
  _get n = Throw e.
Proof.
  intros Hsrc Hbefore Hs. unfold _get, compute.
  destruct (source n) as [s0|l]; simpl in Hsrc.
  - destruct before as [|b before]; simpl in Hsrc.
    + inversion Hsrc; subst. by rewrite Hs.
    + inversion Hsrc as [[Hb Hnil]]. by destruct before.
  - subst l.
    assert (Hmap : map_completion fluid_get (before ++ s :: rest) = Throw e).
    { clear -Hbefore Hs. induction Hbefore as [|b v before vs Hb _ IH]; simpl.
      - by rewrite Hs.
      - by rewrite Hb, IH. }
    by rewrite Hmap.
Qed.

(** X2: a start event, and a change event received while the node is idle,
    bring the stored output up to date at once: when the recompute returns
    [v], the callback returns and the node stores [v], unless the stored
    output was already equal to it and is kept. *)
Theorem parent_event_refreshes (w : World) (ev : Event) (v : Value) :
  (ev = EvStart
   \/ exists x b, ev = EvChange x b /\ idle (self w) = true) ->
  _get (self w) = Normal v ->
  exists w',
    onParentChange ev w = (Normal tt, w')
    /\ (if isEqual v (get (self w))
        then get (self w') = get (self w)
        else get (self w') = v).
Proof.
  intros Hev Hget. rewrite (onParentChange_advance_run _ _ Hev).
  destruct (isEqual v (get (self w))) eqn:Heq.
  - destruct (all_idle (self w)) eqn:Hidle.
    + rewrite (advance_settled _ v) by done. by eexists.
    + rewrite (advance_waiting _ v) by done. by eexists.
  - rewrite (advance_changed _ v) by done. by eexists.
Qed.

(** X3: an active node does not react to a change event of a parent that
    is still animating, nor to one that reports idle while another source is
    not idle, nor to an event of a type it does not know: the node is left
    as it was and the event is only handed to the base class. *)
Theorem unhandled_event_only_forwarded (w : World) (ev : Event) :
  (ev = EvOther
   \/ exists x b, ev = EvChange x b /\ idle (self w) = false
        /\ (b = false \/ all_idle (self w) = false)) ->
  onParentChange ev w =
    (Normal tt,
     {| self := self w; skipAnimation := skipAnimation w;
        effects := effects w ++ [SuperOnParentChange ev] |}).
Proof. apply onParentChange_forward_run. Qed.

Lemma onParentChange_classify (w : World) (ev : Event) :
  (ev = EvStart \/ exists x b, ev = EvChange x b /\ idle (self w) = true)
  \/ (exists x, ev = EvChange x true /\ idle (self w) = false
               /\ all_idle (self w) = true)
  \/ (ev = EvOther
      \/ exists x b, ev = EvChange x b /\ idle (self w) = false
           /\ (b = false \/ all_idle (self w) = false))
  \/ (exists x, ev = EvPriority x).
Proof.
  destruct ev as [|x b|x|]; eauto 6.
  destruct (idle (self w)) eqn:Hflag; [eauto 6|].
  destruct b; [|right; right; left; right; eauto 8].
  destruct (all_idle (self w)) eqn:Hidle; [eauto 8|].
  right; right; left; right; eauto 8.
Qed.

Lemma advance_keeps_idle (w w' : World) r :
  advance w = (r, w') -> idle (self w) = true -> idle (self w') = true.
Proof.
  intros Hrun Hflag.
  destruct (advance_cases w) as
    [(e & _ & E)|[(v & _ & _ & E)|[(v & _ & _ & _ & E)|(v & _ & _ & _ & E)]]];
    rewrite E in Hrun; inversion Hrun; by subst.
Qed.

Lemma onParentChange_effects (w w' : World) (ev : Event) r :
  onParentChange ev w = (r, w') ->
  match r with
  | Normal _ =>
      exists es, effects w' = effects w ++ es ++ [SuperOnParentChange ev]
                 /\ changes es = es
  | Throw _ => effects w' = effects w
  end.
Proof.
  destruct (onParentChange_classify w ev)
    as [Hadv|[(x & -> & Hflag & Hidle)|[Hfwd|(x & ->)]]].
  - rewrite (onParentChange_advance_run _ _ Hadv).
    destruct (advance w) as [r1 w1] eqn:Hrun.
    destruct (advance_cases w) as
      [(e & _ & E)|[(v & _ & _ & E)|[(v & _ & _ & _ & E)|(v & _ & _ & _ & E)]]];
      rewrite E in Hrun; inversion Hrun; subst; clear Hrun;
      intros Hrun; inversion Hrun; subst; clear Hrun; simpl; try done.
    + eexists [_]. by rewrite <- app_assoc.
    + eexists [_]. by rewrite <- app_assoc.
    + by exists [].
  - rewrite onParentChange_leave_run by done.
    destruct (advance _) as [r1 w1] eqn:Hrun.
    destruct (advance_footprint _ _ _ Hrun) as (_ & _ & es & He & Hes).
    simpl in He. rewrite app_nil_r in He.
    destruct r1 as [[]|e]; intros Hout; inversion Hout; subst; clear Hout.
    + simpl. exists (es ++ [OnChange (get (self w1)) true]).
      rewrite He, <- !app_assoc. split; [done|].
      unfold changes in *. by rewrite List.filter_app, Hes.
    + destruct (advance_cases (after w (with_idle true (self w)) [])) as
        [(e' & _ & E)|[(v & _ & _ & E)|[(v & _ & _ & _ & E)|(v & _ & _ & _ & E)]]];
        rewrite E in Hrun; inversion Hrun; subst.
      simpl. by rewrite app_nil_r.
  - rewrite (onParentChange_forward_run _ _ Hfwd).
    intros Hout; inversion Hout; subst. by exists [].
  - rewrite onParentChange_priority_run.
    intros Hout; inversion Hout; subst. by exists [].
Qed.

(** X4: when [onParentChange] returns, it has handed the event to the base
    class exactly once, as its last call, after everything the node itself
    emitted, which is change events only. *)
Theorem onParentChange_forwards_last (w w' : World) (ev : Event) :
  onParentChange ev w = (Normal tt, w') ->
  exists es, effects w' = effects w ++ es ++ [SuperOnParentChange ev]
             /\ changes es = es.
Proof. intros Hrun. exact (onParentChange_effects _ _ _ _ Hrun). Qed.

(** X5: [advance] emits at most one event, and only a change event; it
    never calls the base class or the frame loop, and it leaves the sources,
    the mapping, the priority and the global flag alone. *)
Theorem advance_emits_at_most_one (w w' : World) r :
  advance w = (r, w') ->
  same_wiring (self w) (self w')
  /\ skipAnimation w' = skipAnimation w
  /\ (exists es, effects w' = effects w ++ es
                 /\ changes es = es /\ (length es <= 1)%nat).
Proof.
  intros Hrun.
  destruct (advance_cases w) as
    [(e & _ & E)|[(v & _ & _ & E)|[(v & _ & _ & _ & E)|(v & _ & _ & _ & E)]]];
    rewrite E in Hrun; inversion Hrun; subst; clear Hrun;
    (split; [by unfold same_wiring|split; [done|]]).
  - exists []. rewrite app_nil_r. simpl. repeat split; try done; lia.
  - eexists [_]. simpl. repeat split; try done; lia.
  - eexists [_]. simpl. repeat split; try done; lia.
  - exists []. rewrite app_nil_r. simpl. repeat split; try done; lia.
Qed.

(** *** What the observers are told *)

Lemma announced_silent (w w' : World) (es : list Effect) :
  effects w' = effects w ++ es -> changes es = [] -> announced w w'.
Proof.
  intros He Hes. exists es. split; [done|]. intros v b Hin.
  assert (Hc : In (OnChange v b) (changes es))
    by (apply List.filter_In; by split).
  rewrite Hes in Hc. destruct Hc.
Qed.

Lemma announced_after_silent (w w0 w' : World) (es : list Effect) :
  effects w0 = effects w ++ es -> changes es = [] ->
  announced w0 w' -> announced w w'.
Proof.
  intros He Hes (es' & He' & Htold). exists (es ++ es').
  split; [by rewrite He', He, app_assoc|].
  intros v b Hin. apply in_app_or in Hin as [Hin|Hin]; [|by apply Htold].
  assert (Hc : In (OnChange v b) (changes es))
    by (apply List.filter_In; by split).
  rewrite Hes in Hc. destruct Hc.
Qed.

Lemma announced_then (w w1 w2 : World) (es : list Effect) :
  announced w w1 ->
  effects w2 = effects w1 ++ es ->
  get (self w2) = get (self w1) ->
  (idle (self w1) = true -> idle (self w2) = true) ->
  (forall v b, In (OnChange v b) es ->
     v = get (self w2) /\ (b = true -> idle (self w2) = true)) ->
  announced w w2.
Proof.
  intros (es1 & He1 & Htold1) He2 Hget Hidle Htold2. exists (es1 ++ es).
  split; [by rewrite He2, He1, app_assoc|].
  intros v b Hin. apply in_app_or in Hin as [Hin|Hin]; [|by apply Htold2].
  destruct (Htold1 v b Hin) as [Hv Hb]. rewrite Hget. split; [done|].
  intros Hb'. by apply Hidle, Hb.
Qed.

Lemma announced_advance (w w' : World) r :
  advance w = (r, w') -> announced w w'.
Proof.
  intros Hrun.
  destruct (advance_cases w) as
    [(e & _ & E)|[(v & _ & _ & E)|[(v & _ & _ & _ & E)|(v & _ & _ & _ & E)]]];
    rewrite E in Hrun; inversion Hrun; subst; clear Hrun.
  - apply (announced_silent _ _ []); [by rewrite app_nil_r|done].
  - eexists [_]. split; [done|].
    intros v' b [[= <- <-]|[]]. by split.
  - eexists [_]. split; [done|].
    intros v' b [[= <- <-]|[]]. by split.
  - apply (announced_silent _ _ []); [by rewrite app_nil_r|done].
Qed.

Lemma announced_start (w w' : World) r :
  _start w = (r, w') -> announced w w'.
Proof.
  rewrite _start_run. destruct (skipAnimation w).
  - destruct (advance _) as [r1 w1] eqn:Hrun.
    apply announced_advance in Hrun.
    apply (announced_after_silent w _ _ [SuperStart]) in Hrun; [|done|done].
    destruct r1 as [[]|e]; intros Hout; inversion Hout; subst; clear Hout;
      [|done].
    apply (announced_then w w1 _ [OnChange (get (self w1)) true]);
      try done.
    intros v b [[= <- <-]|[]]. by split.
  - intros Hout; inversion Hout; subst.
    by apply (announced_silent _ _ [SuperStart; FrameLoopStart]).
Qed.

(** X6: whatever method runs and however it ends, every change event it
    emitted carries the output that [get()] returns once the call is over,
    and every change event that says idle comes from a node whose idle flag
    is then true. *)
Theorem observers_told_the_truth (w w' : World) r :
  (advance w = (r, w')
   \/ _start w = (r, w')
   \/ _attach w = (r, w')
   \/ _detach w = (r, w')
   \/ exists ev, onParentChange ev w = (r, w')) ->
  announced w w'.
Proof.
  intros [Hrun|[Hrun|[Hrun|[Hrun|(ev & Hrun)]]]].
  - by apply announced_advance in Hrun.
  - by apply announced_start in Hrun.
  - rewrite _attach_run in Hrun. destruct (all_idle (self w)).
    + inversion Hrun; subst.
      apply (announced_silent _ _ []); [done|done].
    + apply announced_start in Hrun.
      by apply (announced_after_silent w _ _ [SuperReset]) in Hrun.
  - rewrite _detach_run in Hrun. inversion Hrun; subst.
    eexists [_]. split; [done|].
    intros v b [[= <- <-]|[]]. by split.
  - destruct (onParentChange_classify w ev)
      as [Hadv|[(x & -> & Hflag & Hidle)|[Hfwd|(x & ->)]]].
    + rewrite (onParentChange_advance_run _ _ Hadv) in Hrun.
      destruct (advance w) as [r1 w1] eqn:Hstep.
      apply announced_advance in Hstep.
      destruct r1 as [[]|e]; inversion Hrun; subst; [|done].
      apply (announced_then w w1 _ [SuperOnParentChange ev]); try done.
      intros v b [Hin|[]]. discriminate Hin.
    + rewrite onParentChange_leave_run in Hrun by done.
      destruct (advance _) as [r1 w1] eqn:Hstep.
      pose proof (advance_keeps_idle _ _ _ Hstep eq_refl) as Hidle1.
      apply announced_advance in Hstep.
      apply (announced_after_silent w _ _ []) in Hstep; [|done|done].
      destruct r1 as [[]|e]; inversion Hrun; subst; [|done].
      apply (announced_then w w1 _
               [OnChange (get (self w1)) true;
                SuperOnParentChange (EvChange x true)]); try done.
      intros v b [[= <- <-]|[Hin|[]]]; [by split|discriminate Hin].
    + rewrite (onParentChange_forward_run _ _ Hfwd) in Hrun.
      inversion Hrun; subst.
      by apply (announced_silent _ _ [SuperOnParentChange ev]).
    + rewrite onParentChange_priority_run in Hrun. inversion Hrun; subst.
      by apply (announced_silent _ _ [SuperOnParentChange (EvPriority x)]).
Qed.

(** *** Registration *)




(** *** The two computations of the priority *)




(** *** Failing under [skipAnimation] *)

Lemma compute_addChild (child : nat) (x : OneOrMore FluidValue) f :
  compute (map_source (addChild child) x) f = compute x f.
Proof.
  unfold compute. destruct x as [s|l]; simpl; [done|].
  f_equal. induction l as [|s l IH]; simpl; [done|]. by rewrite IH.
Qed.

(** X9: when the global [skipAnimation] is set and the recompute throws,
    [_start] throws after it has cleared the idle flag and called the base
    class: the node is left with idle = false although it was never handed
    to the frame loop.  An [_attach] over a source that is not idle fails
    the same way, with the node already registered with every source, its
    priority written and its payload reset. *)
Theorem failing_start_leaves_node_active (w : World) (e : Error) :
  skipAnimation w = true ->
  _get (self w) = Throw e ->
  _start w = (Throw e, after w (with_idle false (self w)) [SuperStart])
  /\ (all_idle (self w) = false ->
      _attach w =
        (Throw e,
         after w (with_idle false (reset_payload (attached (self w))))
           [SuperReset; SuperStart])).
Proof.
  intros Hskip Hget. split.
  - rewrite _start_run, Hskip. by rewrite (advance_throw _ e).
  - intros Hidle. rewrite _attach_run, Hidle, _start_run. simpl.
    rewrite Hskip. rewrite (advance_throw _ e).
    + unfold after. simpl. by rewrite <- app_assoc.
    + simpl. unfold _get. simpl. by rewrite compute_addChild.
Qed.

(** *** No sources *)

(** X10: over an empty array of sources the mapping is applied to no
    input, every check for idleness succeeds, [_attach] sets the priority to
    1 without starting the node and a priority event sets it to 0. *)
Theorem empty_source_array (w : World) :
  source (self w) = More [] ->
  _get (self w) = calc (self w) []
  /\ checkIdle w = (Normal true, after w (with_idle true (self w)) [])
  /\ (exists w', _attach w = (Normal tt, w')
        /\ priority (self w') = 1 /\ idle (self w') = idle (self w)
        /\ effects w' = effects w)
  /\ (forall x, priority (self (snd (onParentChange (EvPriority x) w))) = 0).
Proof.
  intros Hsrc.
  assert (Hidle : all_idle (self w) = true)
    by (unfold all_idle; by rewrite Hsrc).
  split; [unfold _get, compute; by rewrite Hsrc|].
  split; [by rewrite checkIdle_run, Hidle|split].
  - eexists. rewrite _attach_run, Hidle. split; [done|]. simpl.
    unfold attach_priority. rewrite Hsrc. simpl.
    by rewrite app_nil_r.
  - intros x. rewrite onParentChange_priority_run. simpl.
    unfold reduced_priority. by rewrite Hsrc.
Qed.

(** *** Memoization *)

(** X11: when [isEqual] is reflexive, an [advance] that returned has
    brought the node up to date: a second [advance] over the same sources
    returns too, keeps the stored output, and either changes nothing or,
    all sources being idle, only settles the node. *)
Theorem advance_twice (w w1 : World) :
  (forall v, isEqual v v = true) ->
  advance w = (Normal tt, w1) ->
  exists w2,
    advance w1 = (Normal tt, w2)
    /\ get (self w2) = get (self w1)
    /\ (w2 = w1
        \/ (all_idle (self w) = true
            /\ idle (self w2) = true
            /\ effects w2 = effects w1 ++ [OnChange (get (self w1)) true])).
Proof.
  intros Hrefl Hrun.
  destruct (advance_cases w) as
    [(e & _ & E)|[(v & Hget & Hne & E)|[(v & Hget & Heq & Hidle & E)
                                       |(v & Hget & Heq & Hidle & E)]]];
    rewrite E in Hrun; inversion Hrun; subst; clear Hrun.
  - destruct (all_idle (self w)) eqn:Hidle.
    + eexists. split; [apply (advance_settled _ v); try done; apply Hrefl|].
      simpl. split; [done|right; by repeat split].
    + eexists. split; [apply (advance_waiting _ v); try done; apply Hrefl|].
      split; [done|by left].
  - eexists. split; [by apply (advance_settled _ v)|].
    simpl. split; [done|right; by repeat split].
  - eexists. split; [by apply (advance_waiting _ v)|].
    split; [done|by left].
Qed.

(** X12: construction fails exactly when the first computation throws, with
    the same error.  When it succeeds the node is idle, refers to the
    sources as they were given (it has not registered with them) and holds
    the cell created from the computed value; if that cell stores the value
    and [isEqual] is reflexive, the first [advance] has no new output to
    emit: it keeps the stored output. *)
Theorem construction_memoizes (i : nat) (p : Z) (create : Value -> Animated)
  (src : OneOrMore FluidValue) (f : list Value -> completion Value) :
  (forall v, isEqual v v = true) ->
  (forall v, getValue (create v) = v) ->
  (forall e, new_Interpolation i p create src f = Throw e
             <-> compute src f = Throw e)
  /\ (forall n, new_Interpolation i p create src f = Normal n ->
        idle n = true /\ source n = src /\ priority n = p
        /\ _get n = Normal (get n)
        /\ forall skip es, exists w',
             advance (mkWorld n skip es) = (Normal tt, w')
             /\ get (self w') = get n).
Proof.
  intros Hrefl Hcreate. unfold new_Interpolation. split.
  - intros e. destruct (compute src f); simpl; split; congruence.
  - intros n. destruct (compute src f) as [v|e] eqn:Hv; simpl; [|done].
    intros [= <-]. unfold _get, get. simpl. rewrite Hcreate.
    repeat split; try done.
    intros skip es.
    set (n := {| id := i; source := src; calc := f; idle := true;
                 priority := p; animated := create v |}).
    assert (Hget : _get (self (mkWorld n skip es)) = Normal v) by done.
    assert (Heq : isEqual v (get (self (mkWorld n skip es))) = true).
    { unfold get. simpl. rewrite Hcreate. apply Hrefl. }
    destruct (all_idle n) eqn:Hidle.
    + eexists. split; [by apply (advance_settled _ v)|]. by simpl.
    + eexists. split; [by apply (advance_waiting _ v)|]. by simpl.
Qed.

End Properties.

(** * The properties on the concrete graph *)

Import Scenario.

(** A tick of the frame loop: the source moved from 2 to 5 and is still
    animating, the node stores 4 and emits 10 with the idle flag false. *)
Lemma advance_recomputes_witness :
  reads (source (self (world (node (spring 5 false 0 {[7%nat]}) false 1 4) false)))
        [5]
  /\ doubling [5] = Normal 10
  /\ advance (world (node (spring 5 false 0 {[7%nat]}) false 1 4) false)
     = (Normal tt,
        @mkWorld numbers (node (spring 5 false 0 {[7%nat]}) false 1 10) false
          [OnChange (10 : @Value numbers) false]).
Proof.
  assert (Hr : reads (source (self (world (node (spring 5 false 0 {[7%nat]})
                                              false 1 4) false))) [5])
    by (exists 5; split; reflexivity).
  assert (Hc : doubling [5] = Normal 10) by reflexivity.
  split; [exact Hr|split; [exact Hc|]].
  exact (proj1 (advance_recomputes
                  (world (node (spring 5 false 0 {[7%nat]}) false 1 4) false)
                  [5] 10 Hr Hc) eq_refl).
Defined.

(** C1 as stated fails on an idle node: attached to a static source whose
    value went from 2 to 5, the node recomputes on the parent's change event
    and the change event it emits carries the idle flag true, not false. *)
Lemma advance_on_idle_node_reports_idle :
  let w := world (node (spring 5 true 0 {[7%nat]}) true 1 4) false in
  _get (self w) = Normal 10
  /\ @isEqual numbers 10 (get (self w)) = false
  /\ effects (snd (advance w)) = [OnChange (10 : @Value numbers) true]
  /\ effects (snd (advance w)) <> [OnChange (10 : @Value numbers) false]
  /\ effects (snd (onParentChange (EvChange (5 : @Value numbers) true) w)) =
       [OnChange (10 : @Value numbers) true;
        SuperOnParentChange (EvChange (5 : @Value numbers) true)].
Proof.
  cbv zeta. repeat split; try reflexivity.
  vm_compute. intros Heq. discriminate Heq.
Qed.

(** C2 fails on the code at [_attach]: the loop reads [source.priority]
    before [source.addChild(this)].  Over a derived source that has no
    observer yet (priority 0, its own parent at priority 0) the node reads
    0 and takes priority 1; the registration attaches the source, which
    takes priority 1 as well: when [_attach] is over the node's priority is
    not above its source's. *)
Lemma attach_reads_priority_before_registering :
  let w := world (node (unobserved 5 0) true 0 10) false in
  fst (_attach w) = Normal tt
  /\ priority (self (snd (_attach w))) = 1
  /\ map source_priority (toArray (source (self (snd (_attach w))))) =
       [Some 1]
  /\ map fluid_children (toArray (source (self (snd (_attach w))))) =
       [{[7%nat]}].
Proof. cbv zeta. repeat split; reflexivity. Qed.


(** C3 as stated fails on the parent's change event: the node is active, its
    source has settled at 5 and reports idle, the stored output 10 is already
    the right one.  The recompute inside the callback settles the node and
    the callback settles it again: two final change events for one
    transition to idle. *)
Lemma parent_change_settles_twice :
  let w := world (node (spring 5 true 0 {[7%nat]}) false 1 10) false in
  idle (self w) = false
  /\ all_idle (self w) = true
  /\ idle (self (snd (onParentChange (EvChange (5 : @Value numbers) true) w))) = true
  /\ changes (effects (snd (onParentChange (EvChange (5 : @Value numbers) true) w))) =
       [OnChange (10 : @Value numbers) true;
        OnChange (10 : @Value numbers) true]
  /\ length (changes (effects (snd (onParentChange (EvChange (5 : @Value numbers) true) w))))
       <> 1%nat.
Proof.
  cbv zeta. repeat split; try reflexivity.
  vm_compute. intros Heq. discriminate Heq.
Qed.

(** The last tick's change event of a spring that settled at 5: the node
    still stores 8 and leaves the frame loop with 10. *)
Lemma onParentChange_idle_convergence_witness :
  let w := world (node (spring 5 true 0 {[7%nat]}) false 1 8) false in
  idle (self w) = false
  /\ all_idle (self w) = true
  /\ _get (self w) = Normal 10
  /\ exists w' es,
       onParentChange (EvChange (5 : @Value numbers) true) w = (Normal tt, w')
       /\ idle (self w') = true
       /\ get (self w') =
            (if @isEqual numbers 10 (get (self w)) then get (self w) else 10)
       /\ all_done (self w')
       /\ changes es = es
       /\ effects w' =
            effects w ++ es ++ [OnChange (get (self w')) true;
                                SuperOnParentChange (EvChange (5 : @Value numbers) true)].
Proof.
  cbv zeta.
  split; [reflexivity|split; [reflexivity|split; [reflexivity|]]].
  exact (onParentChange_idle_convergence
           (world (node (spring 5 true 0 {[7%nat]}) false 1 8) false)
           (5 : @Value numbers) 10 eq_refl eq_refl eq_refl).
Defined.

(** The same callback, event by event. *)
Lemma onParentChange_emits_idle_twice_witness :
  let w := world (node (spring 5 true 0 {[7%nat]}) false 1 8) false in
  idle (self w) = false
  /\ all_idle (self w) = true
  /\ _get (self w) = Normal 10
  /\ @isEqual numbers 10 (get (self w)) = false
  /\ onParentChange (EvChange (5 : @Value numbers) true) w =
       (Normal tt,
        after w (settled_payload
                   (stored (10 : @Value numbers) (with_idle true (self w))))
          [OnChange (10 : @Value numbers) true;
           OnChange (10 : @Value numbers) true;
           SuperOnParentChange (EvChange (5 : @Value numbers) true)]).
Proof.
  cbv zeta.
  split; [reflexivity|split; [reflexivity|split; [reflexivity|
    split; [reflexivity|]]]].
  exact (proj2 (proj2 (onParentChange_emits_idle_twice
           (world (node (spring 5 true 0 {[7%nat]}) false 1 8) false)
           (5 : @Value numbers) 10 eq_refl eq_refl eq_refl eq_refl))).
Defined.

(** C7 as stated fails at [_detach]: the last observer leaves while the
    source is still animating; the idle flag is forced to true over a source
    that is not idle. *)
Lemma detach_idle_over_active_source :
  let w := world (node (spring 5 false 0 {[7%nat]}) false 1 8) false in
  idle_agrees (self w)
  /\ fst (_detach w) = Normal tt
  /\ idle (self (snd (_detach w))) = true
  /\ all_idle (self (snd (_detach w))) = false
  /\ ~ idle_agrees (self (snd (_detach w))).
Proof.
  cbv zeta. split; [intros Hflag; discriminate Hflag|].
  repeat split; try reflexivity.
  intros Hagree. specialize (Hagree eq_refl). discriminate Hagree.
Qed.

(** A tick over a source that has settled: the node becomes idle and still
    agrees with it. *)
Lemma idle_flag_follows_sources_witness :
  let w := world (node (spring 5 true 0 {[7%nat]}) false 1 10) false in
  idle_agrees (self w)
  /\ idle (self (snd (advance w))) = true
  /\ idle_agrees (self (snd (advance w))).
Proof.
  cbv zeta.
  assert (Hinv : idle_agrees
            (self (world (node (spring 5 true 0 {[7%nat]}) false 1 10) false)))
    by (intros Hflag; discriminate Hflag).
  split; [exact Hinv|split; [reflexivity|]].
  exact (proj1 (idle_flag_follows_sources
                  (world (node (spring 5 true 0 {[7%nat]}) false 1 10) false)
                  Hinv) _ _ eq_refl).
Defined.

(** A source whose read throws: the tick and the parent's events fail, the
    stored output 8 stays. *)
Lemma failed_recompute_keeps_output_witness :
  let w := world (node unreadable false 1 8) false in
  _get (self w) = @Throw numbers Z tt
  /\ advance w = (@Throw numbers unit tt, w)
  /\ onParentChange EvStart w = (@Throw numbers unit tt, w)
  /\ get (self (snd (onParentChange (EvChange (5 : @Value numbers) true) w)))
     = 8.
Proof.
  cbv zeta.
  pose proof (failed_recompute_keeps_output
                (world (node unreadable false 1 8) false) tt eq_refl)
    as (Hadv & Hstart & _).
  split; [reflexivity|split; [exact Hadv|split; [exact Hstart|reflexivity]]].
Defined.

(** [skipAnimation] over an animating source: one recompute, one settle, no
    frame loop. *)
Lemma start_skipAnimation_witness :
  let w := world (node (spring 5 false 0 {[7%nat]}) true 1 4) true in
  skipAnimation w = true
  /\ _start w =
       (Normal tt,
        @mkWorld numbers
          (@mkInterpolation numbers 7%nat
             (One (spring 5 false 0 {[7%nat]})) doubling true 1
             (@mkAnimated numbers 10 [mkAnimatedValue true tt]))
          true
          [SuperStart;
           OnChange (10 : @Value numbers) false;
           OnChange (10 : @Value numbers) true]).
Proof.
  cbv zeta. split; [reflexivity|].
  rewrite (proj1 (start_skipAnimation
                    (world (node (spring 5 false 0 {[7%nat]}) true 1 4) true)
                    eq_refl)).
  reflexivity.
Defined.

(** ** The scenarios of the specification *)

(** Static sources 1 and 2 and their sum: construction stores 3 and leaves
    the node idle. *)
Example static_sum_constructed :
  @new_Interpolation numbers 9%nat 0 create
    (More [plain 1 ∅; plain 2 ∅]) summing =
    Normal (@mkInterpolation numbers 9%nat (More [plain 1 ∅; plain 2 ∅])
              summing true 0 (create 3)).
Proof. reflexivity. Qed.

(** Attaching it registers the node with both sources, sets the priority to
    1 and makes no call: the frame loop is not started. *)
Example static_sum_attached :
  _attach (world (@mkInterpolation numbers 9%nat
                    (More [plain 1 ∅; plain 2 ∅]) summing true 0 (create 3))
                 false) =
    (Normal tt,
     world (@mkInterpolation numbers 9%nat
              (More [plain 1 {[9%nat]}; plain 2 {[9%nat]}]) summing true 1
              (create 3))
           false).
Proof. reflexivity. Qed.

(** A source animating from 0 to 10 and its double: attaching during the
    animation resets the payload and asks the frame loop to start the node;
    a tick with the source at 5 emits 10 with idle = false; the parent's last
    change event, at 10 and idle, makes the node emit 20 with idle = true
    and leaves it idle with its payload done. *)
Example animation_attached :
  _attach (world (node (spring 0 false 0 ∅) true 0 0) false) =
    (Normal tt,
     @mkWorld numbers (node (spring 0 false 0 {[7%nat]}) false 1 0) false
       [SuperReset; SuperStart; FrameLoopStart]).
Proof. reflexivity. Qed.

Example animation_tick :
  advance (world (node (spring 5 false 0 {[7%nat]}) false 1 0) false) =
    (Normal tt,
     @mkWorld numbers (node (spring 5 false 0 {[7%nat]}) false 1 10) false
       [OnChange (10 : @Value numbers) false]).
Proof. reflexivity. Qed.

Example animation_settled :
  onParentChange (EvChange (10 : @Value numbers) true)
    (world (node (spring 10 true 0 {[7%nat]}) false 1 18) false) =
    (Normal tt,
     @mkWorld numbers
       (@mkInterpolation numbers 7%nat (One (spring 10 true 0 {[7%nat]}))
          doubling true 1 (@mkAnimated numbers 20 [mkAnimatedValue true tt]))
       false
       [OnChange (20 : @Value numbers) true;
        OnChange (20 : @Value numbers) true;
        SuperOnParentChange (EvChange (10 : @Value numbers) true)]).
Proof. reflexivity. Qed.

(** An unchanged output over sources that are still animating: the tick is
    silent. *)
Example animation_quiet_tick :
  advance (world (node (spring 5 false 0 {[7%nat]}) false 1 10) false) =
    (Normal tt, world (node (spring 5 false 0 {[7%nat]}) false 1 10) false).
Proof. reflexivity. Qed.

(** ** The further properties on the concrete graph *)

(** The second of three sources cannot be read. *)
Lemma get_first_failing_read_witness :
  toArray (source (sum_node [plain 1 ∅; unreadable; plain 2 ∅] 0)) =
    [plain 1 ∅] ++ unreadable :: [plain 2 ∅]
  /\ Forall2 (fun s v => fluid_get s = Normal v) [plain 1 ∅] [1]
  /\ fluid_get unreadable = @Throw numbers Z tt
  /\ _get (sum_node [plain 1 ∅; unreadable; plain 2 ∅] 0) =
       @Throw numbers Z tt.
Proof.
  assert (H1 : Forall2 (fun s v => fluid_get s = @Normal numbers Z v)
                 [plain 1 ∅] [1])
    by (constructor; [reflexivity|constructor]).
  split; [reflexivity|split; [exact H1|split; [reflexivity|]]].
  exact (get_first_failing_read
           (sum_node [plain 1 ∅; unreadable; plain 2 ∅] 0)
           [plain 1 ∅] [plain 2 ∅] unreadable [1] tt eq_refl H1 eq_refl).
Defined.

(** An idle node hears that its static source went to 5. *)
Lemma parent_event_refreshes_witness :
  let w := world (node (spring 5 true 0 {[7%nat]}) true 1 4) false in
  idle (self w) = true
  /\ _get (self w) = Normal 10
  /\ exists w',
       onParentChange (EvChange (5 : @Value numbers) true) w = (Normal tt, w')
       /\ (if @isEqual numbers 10 (get (self w))
           then get (self w') = get (self w)
           else get (self w') = 10).
Proof.
  cbv zeta. split; [reflexivity|split; [reflexivity|]].
  exact (parent_event_refreshes
           (world (node (spring 5 true 0 {[7%nat]}) true 1 4) false)
           (EvChange (5 : @Value numbers) true) 10
           (or_intror (ex_intro _ 5 (ex_intro _ true (conj eq_refl eq_refl))))
           eq_refl).
Defined.

(** An active node hears that its source, still animating, is at 5. *)
Lemma unhandled_event_only_forwarded_witness :
  let w := world (node (spring 5 false 0 {[7%nat]}) false 1 4) false in
  idle (self w) = false
  /\ onParentChange (EvChange (5 : @Value numbers) false) w =
       (Normal tt,
        @mkWorld numbers (self w) false
          [SuperOnParentChange (EvChange (5 : @Value numbers) false)]).
Proof.
  cbv zeta. split; [reflexivity|].
  exact (unhandled_event_only_forwarded
           (world (node (spring 5 false 0 {[7%nat]}) false 1 4) false)
           (EvChange (5 : @Value numbers) false)
           (or_intror (ex_intro _ 5 (ex_intro _ false
              (conj eq_refl (conj eq_refl (or_introl eq_refl))))))).
Defined.

Lemma onParentChange_forwards_last_witness :
  let w := world (node (spring 5 true 0 {[7%nat]}) true 1 4) false in
  exists es,
    effects (snd (onParentChange (EvChange (5 : @Value numbers) true) w)) =
      effects w ++ es ++ [SuperOnParentChange (EvChange (5 : @Value numbers) true)]
    /\ changes es = es.
Proof.
  cbv zeta.
  exact (onParentChange_forwards_last
           (world (node (spring 5 true 0 {[7%nat]}) true 1 4) false)
           _ (EvChange (5 : @Value numbers) true) eq_refl).
Defined.

Lemma advance_emits_at_most_one_witness :
  let w := world (node (spring 5 false 0 {[7%nat]}) false 1 0) false in
  exists es, effects (snd (advance w)) = effects w ++ es
             /\ changes es = es /\ (length es <= 1)%nat.
Proof.
  cbv zeta.
  exact (proj2 (proj2 (advance_emits_at_most_one
           (world (node (spring 5 false 0 {[7%nat]}) false 1 0) false)
           _ (Normal tt) eq_refl))).
Defined.

(** The callback that leaves the frame loop at 20. *)
Lemma observers_told_the_truth_witness :
  let w := world (node (spring 10 true 0 {[7%nat]}) false 1 18) false in
  get (self (snd (onParentChange (EvChange (10 : @Value numbers) true) w)))
    = 20
  /\ announced w
       (snd (onParentChange (EvChange (10 : @Value numbers) true) w)).
Proof.
  cbv zeta. split; [reflexivity|].
  apply (observers_told_the_truth
           (world (node (spring 10 true 0 {[7%nat]}) false 1 18) false)
           _ (Normal tt)).
  right; right; right; right.
  exists (EvChange (10 : @Value numbers) true). reflexivity.
Defined.


Lemma failing_start_leaves_node_active_witness :
  let w := world (node unreadable true 1 8) true in
  skipAnimation w = true
  /\ _get (self w) = @Throw numbers Z tt
  /\ _start w =
       (@Throw numbers unit tt,
        after w (with_idle false (self w)) [SuperStart])
  /\ idle (self (snd (_start w))) = false.
Proof.
  cbv zeta.
  split; [reflexivity|split; [reflexivity|split; [|reflexivity]]].
  exact (proj1 (failing_start_leaves_node_active
                  (world (node unreadable true 1 8) true) tt
                  eq_refl eq_refl)).
Defined.

Lemma empty_source_array_witness :
  let w := world (sum_node [] 0) false in
  source (self w) = More []
  /\ _get (self w) = Normal 0
  /\ priority (self (snd (_attach w))) = 1
  /\ priority (self (snd (onParentChange (EvPriority 0) w))) = 0.
Proof.
  cbv zeta.
  pose proof (empty_source_array (world (sum_node [] 0) false) eq_refl)
    as (Hget & _ & _ & Hevent).
  split; [reflexivity|split; [exact Hget|split; [reflexivity|]]].
  exact (Hevent 0).
Defined.

(** Two ticks while the source stays at 5. *)
Lemma advance_twice_witness :
  let w := world (node (spring 5 false 0 {[7%nat]}) false 1 0) false in
  (forall v, @isEqual numbers v v = true)
  /\ fst (advance w) = Normal tt
  /\ exists w2,
       advance (snd (advance w)) = (Normal tt, w2)
       /\ get (self w2) = get (self (snd (advance w)))
       /\ (w2 = snd (advance w)
           \/ (all_idle (self w) = true
               /\ idle (self w2) = true
               /\ effects w2 =
                    effects (snd (advance w))
                      ++ [OnChange (get (self (snd (advance w)))) true])).
Proof.
  cbv zeta.
  assert (Hrefl : forall v, @isEqual numbers v v = true)
    by (intros v; apply Z.eqb_refl).
  split; [exact Hrefl|split; [reflexivity|]].
  exact (advance_twice
           (world (node (spring 5 false 0 {[7%nat]}) false 1 0) false) _
           Hrefl eq_refl).
Defined.

(** The sum of the static sources 1 and 2. *)
Lemma construction_memoizes_witness :
  (forall v, @isEqual numbers v v = true)
  /\ (forall v, getValue (create v) = v)
  /\ exists w',
       advance (world (sum_node [plain 1 ∅; plain 2 ∅] 3) false)
         = (Normal tt, w')
       /\ get (self w') = 3.
Proof.
  assert (Hrefl : forall v, @isEqual numbers v v = true)
    by (intros v; apply Z.eqb_refl).
  assert (Hcreate : forall v, getValue (create v) = v) by reflexivity.
  split; [exact Hrefl|split; [exact Hcreate|]].
  destruct (@construction_memoizes numbers 9%nat 0 create
              (More [plain 1 ∅; plain 2 ∅]) summing Hrefl Hcreate)
    as [_ Hnode].
  destruct (Hnode (sum_node [plain 1 ∅; plain 2 ∅] 3) eq_refl)
    as (_ & _ & _ & _ & Hadv).
  exact (Hadv false []).
Defined.
